(** * RenderData: pooled UI render geometry with dirty flags

    A shallow embedding of [cocos/renderer/ui/renderData.ts], and of the
    feature queries of the build-time [StatsQuery] class.

    JavaScript objects are mutable and shared: a [RenderData] instance lives in
    the backing storage of the static pool [_pool] and is reached through the
    handles handed out by [RenderData.add]; a vertex record lives in the backing
    storage of [_dataPool] and in the [_datas] array of the instance that took
    it.  Objects are therefore kept in two stores addressed by reference, and
    the pools and arrays hold references. *)

From Stdlib Require Import PrimFloat.
From stdpp Require Import base option list strings gmap.

(** ** JavaScript values *)

(** [number] is an IEEE double. *)
Definition number := float.

(** [a !== b] on numbers: [NaN !== NaN] holds, [0 !== -0] does not. *)
Definition strict_neq (a b : number) : bool := negb (PrimFloat.eqb a b).

(** A reference to an object of one of the two stores: its position there. *)
Abbreviation ref := nat (only parsing).

(** [arr[i] = v] on a JavaScript array whose elements have type [A]: inside the
    array the element is replaced, at [arr.length] the array grows by one, and
    beyond it the array is padded with holes ([None]). *)
Definition array_set {A} (i : nat) (v : A) (arr : list (option A)) : list (option A) :=
  if decide (i < length arr) then <[i := Some v]> arr
  else arr ++ replicate (i - length arr) None ++ [Some v].

(** [arr.splice(start, deleteCount)] for [start >= 0]: the elements
    [start .. start + deleteCount - 1] that exist are removed; a [start] at or
    beyond [arr.length] removes nothing. *)
Definition splice {A} (start deleteCount : nat) (arr : list A) : list A :=
  take start arr ++ drop (start + deleteCount) arr.

(** The values [i] takes in [for (i = from; i < to; i++)]. *)
Definition indices_up (from to : nat) : list nat := seq from (to - from).

(** The values [i] takes in [for (i = from; i > to; i--)]. *)
Definition indices_down (from to : nat) : list nat := rev (seq (S to) (from - to)).

(** ** Collaborators that are imported by the source *)

(** Modelled from the spec: the color value type ([core/value-types] is imported,
    not defined, by the source): a fixed-size RGBA value with a well-known
    default "white" constant. *)
Record Color := { r : number; g : number; b : number; a : number }.

Definition Color_WHITE : Color :=
  {| r := 255%float; g := 255%float; b := 255%float; a := 255%float |}.

(** Modelled from the spec: the material asset type ([3d/assets/material] is
    imported, not defined, by the source): an opaque handle, compared by
    identity and never owned by the core. *)
Inductive Material := MaterialRef (id : nat).

(** Modelled from the spec: the recycling pool primitive ([3d/memop/recycle-pool]
    is imported, not defined, by the source).  The spec asks of it:
    factory-constructed objects; an indexable backing storage; [size()]
    (the [length] getter the source reads); [acquire()] (the source's [add]),
    which returns a new-or-reused object, creating one via the factory when the
    spare capacity is exhausted, at the position the pool's size then counts
    last; and [release(index)] (the source's [removeAt]), which removes the
    element at the given position, with the compaction strategy, shift-left or
    swap-with-last, left open.  The released object stays in the backing
    storage as the first spare slot, for the spec has the slot reused by a
    future acquisition.  The spec defines a release only at a valid position;
    here a release at a position that holds no live element leaves the pool as
    it is. *)
Module RecyclePool.

(** [data] is the backing storage; its first [count] slots are live, the
    rest is spare capacity. *)
Record t := mk { data : list ref; count : nat }.

Inductive compaction := ShiftLeft | SwapWithLast.

(** [new RecyclePool(fn, size)]: [size] spare objects made by the factory.
    A factory of the source takes no argument and returns a fresh object in
    a fixed initial state, so it is given by that state [fn]; the new
    objects are allocated at the end of the store. *)
Definition new {T} (fn : T) (size : nat) (store : list T) : list T * t :=
  (store ++ replicate size fn, mk (seq (List.length store) size) 0).

Definition length (p : t) : nat := count p.

Definition add {T} (fn : T) (store : list T) (p : t) : ref * list T * t :=
  match data p !! count p with
  | Some o => (o, store, mk (data p) (S (count p)))
  | None =>
      let o := List.length store in
      (o, store ++ [fn], mk (data p ++ [o]) (S (count p)))
  end.

Definition swap (i j : nat) (l : list ref) : list ref :=
  match l !! i, l !! j with
  | Some x, Some y => <[j := x]> (<[i := y]> l)
  | _, _ => l
  end.

Definition shift_left (idx cnt : nat) (l : list ref) : list ref :=
  match l !! idx with
  | Some x => take idx l ++ drop (S idx) (take cnt l) ++ x :: drop cnt l
  | None => l
  end.

Definition removeAt (c : compaction) (idx : nat) (p : t) : t :=
  if decide (idx < count p) then
    match c with
    | SwapWithLast => mk (swap idx (count p - 1) (data p)) (count p - 1)
    | ShiftLeft => mk (shift_left idx (count p) (data p)) (count p - 1)
    end
  else p.

(** The live prefix fits in the backing storage. *)
Definition wf (p : t) : Prop := count p ≤ List.length (data p).

End RecyclePool.

(** ** The classes of the source *)

(** [class IRenderData]: a vertex record. *)
Record IRenderData := {
  x : number; y : number; z : number;
  u : number; v : number;
  color : Color
}.

(** [new IRenderData()]. *)
Definition IRenderData_new : IRenderData :=
  {| x := 0%float; y := 0%float; z := 0%float;
     u := 0%float; v := 0%float; color := Color_WHITE |}.

(** [class RenderData extends BaseRenderData].  [_datas] holds references to
    vertex records. *)
Record RenderData := {
  material : option Material;
  vertexCount : number;
  indiceCount : number;
  uvDirty : bool;
  vertDirty : bool;
  _datas : list (option ref);
  _indices : list number;
  _pivotX : number;
  _pivotY : number;
  _width : number;
  _height : number
}.

(** [new RenderData()]. *)
Definition RenderData_new : RenderData :=
  {| material := None; vertexCount := 0%float; indiceCount := 0%float;
     uvDirty := true; vertDirty := true;
     _datas := []; _indices := [];
     _pivotX := 0%float; _pivotY := 0%float;
     _width := 0%float; _height := 0%float |}.

(** [get dataLength ()]. *)
Definition dataLength (this : RenderData) : nat := length (_datas this).

(** [get datas ()]. *)
Definition datas (this : RenderData) : list (option ref) := _datas this.

Definition with_datas (ds : list (option ref)) (this : RenderData) : RenderData :=
  {| material := material this; vertexCount := vertexCount this;
     indiceCount := indiceCount this;
     uvDirty := uvDirty this; vertDirty := vertDirty this;
     _datas := ds; _indices := _indices this;
     _pivotX := _pivotX this; _pivotY := _pivotY this;
     _width := _width this; _height := _height this |}.

(** [updateSizeNPivot (width, height, pivotX, pivotY)]. *)
Definition updateSizeNPivot (width height pivotX pivotY : number)
    (this : RenderData) : RenderData :=
  if strict_neq width (_width this) ||
     strict_neq height (_height this) ||
     strict_neq pivotX (_pivotX this) ||
     strict_neq pivotY (_pivotY this)
  then
    {| material := material this; vertexCount := vertexCount this;
       indiceCount := indiceCount this;
       uvDirty := uvDirty this; vertDirty := true;
       _datas := _datas this; _indices := _indices this;
       _pivotX := pivotX; _pivotY := pivotY;
       _width := width; _height := height |}
  else this.

(** [clear ()]: every field is assigned. *)
Definition clear (this : RenderData) : RenderData :=
  {| material := None; vertexCount := 0%float; indiceCount := 0%float;
     uvDirty := true; vertDirty := true;
     _datas := []; _indices := [];
     _pivotX := 0%float; _pivotY := 0%float;
     _width := 0%float; _height := 0%float |}.

(** The handle [{ pooID, data }] returned by [RenderData.add]. *)
Record Handle := { pooID : nat; data : ref }.

(** The module state: both object stores and the two module-level pools. *)
Record World := {
  vertices : list IRenderData;
  objects : list RenderData;
  _dataPool : RecyclePool.t;
  _pool : RecyclePool.t
}.

(** What the [dataLength] setter reads and writes: the [_datas] array, the
    store of vertex records and [_dataPool]. *)
Record Resize := {
  rs_data : list (option ref);
  rs_vertices : list IRenderData;
  rs_pool : RecyclePool.t
}.

Section Engine.

(** The compaction strategy of the pool primitive, which the spec leaves
    open: everything below is stated for either. *)
Variable compaction : RecyclePool.compaction.

(** [data[i] = _dataPool.add();] *)
Definition grow_step (st : Resize) (i : nat) : Resize :=
  let '(o, vs, p) := RecyclePool.add IRenderData_new (rs_vertices st) (rs_pool st) in
  {| rs_data := array_set i o (rs_data st); rs_vertices := vs; rs_pool := p |}.

(** [_dataPool.removeAt(i); data.splice(i, 1);] *)
Definition shrink_step (st : Resize) (i : nat) : Resize :=
  {| rs_data := splice i 1 (rs_data st);
     rs_vertices := rs_vertices st;
     rs_pool := RecyclePool.removeAt compaction i (rs_pool st) |}.

(** [set dataLength (length)], for a [length] that is a natural number. *)
Definition set_dataLength (length : nat) (st : Resize) : Resize :=
  if negb (List.length (rs_data st) =? length) then
    let value := List.length (rs_data st) in
    let st := foldl grow_step st (indices_up value length) in
    foldl shrink_step st (indices_down value length)
  else st.

(** [o.dataLength = length] on the object referenced by [o]. *)
Definition call_set_dataLength (o : ref) (length : nat) (w : World) : option World :=
  this ← objects w !! o;
  let st := set_dataLength length
              {| rs_data := _datas this; rs_vertices := vertices w;
                 rs_pool := _dataPool w |} in
  Some {| vertices := rs_vertices st;
          objects := <[o := with_datas (rs_data st) this]> (objects w);
          _dataPool := rs_pool st;
          _pool := _pool w |}.

(** A method call that touches only the receiver. *)
Definition call_method (f : RenderData → RenderData) (o : ref) (w : World) : option World :=
  this ← objects w !! o;
  Some {| vertices := vertices w;
          objects := <[o := f this]> (objects w);
          _dataPool := _dataPool w;
          _pool := _pool w |}.

(** [RenderData.add ()]. *)
Definition RenderData_add (w : World) : Handle * World :=
  let '(o, objs, p) := RecyclePool.add RenderData_new (objects w) (_pool w) in
  ({| pooID := RecyclePool.length p - 1; data := o |},
   {| vertices := vertices w; objects := objs;
      _dataPool := _dataPool w; _pool := p |}).

(** [RenderData.remove (idx)].  [_pool.data[idx]] is [undefined] beyond the
    backing storage, and the call of [clear] on it throws: [None]. *)
Definition RenderData_remove (idx : nat) (w : World) : option World :=
  o ← RecyclePool.data (_pool w) !! idx;
  this ← objects w !! o;
  Some {| vertices := vertices w;
          objects := <[o := clear this]> (objects w);
          _dataPool := _dataPool w;
          _pool := RecyclePool.removeAt compaction idx (_pool w) |}.

(** The operations of the class. *)
Inductive Op :=
| OpSetDataLength (o : ref) (length : nat)
| OpUpdateSizeNPivot (o : ref) (width height pivotX pivotY : number)
| OpClear (o : ref)
| OpAdd
| OpRemove (idx : nat).

Definition run (op : Op) (w : World) : option World :=
  match op with
  | OpSetDataLength o n => call_set_dataLength o n w
  | OpUpdateSizeNPivot o width height pivotX pivotY =>
      call_method (updateSizeNPivot width height pivotX pivotY) o w
  | OpClear o => call_method clear o w
  | OpAdd => Some (RenderData_add w).2
  | OpRemove idx => RenderData_remove idx w
  end.

End Engine.

(** The module as loaded: [_dataPool = new RecyclePool(.., 128)] and
    [_pool = new RecyclePool(.., 32)]. *)
Definition init_world : World :=
  let '(vs, dp) := RecyclePool.new IRenderData_new 128 [] in
  let '(objs, p) := RecyclePool.new RenderData_new 32 [] in
  {| vertices := vs; objects := objs; _dataPool := dp; _pool := p |}.

(** ** Reachable states *)

(** What a consumer of the class can do to an instance without calling a
    method: write the public fields ([material], [vertexCount], [indiceCount],
    [uvDirty], [vertDirty]) and mutate the array the [datas] getter returns.
    The private fields that have no accessor stay as they are. *)
Definition consumer_write (this this' : RenderData) : Prop :=
  _indices this' = _indices this ∧
  _pivotX this' = _pivotX this ∧ _pivotY this' = _pivotY this ∧
  _width this' = _width this ∧ _height this' = _height this.

Inductive reachable (c : RecyclePool.compaction) : World → Prop :=
| reach_init : reachable c init_world
| reach_run w op w' :
    reachable c w → run c op w = Some w' → reachable c w'
| reach_consumer w o this this' :
    reachable c w → objects w !! o = Some this → consumer_write this this' →
    reachable c {| vertices := vertices w;
                   objects := <[o := this']> (objects w);
                   _dataPool := _dataPool w;
                   _pool := _pool w |}.

(** References held by the static pool point into the object store. *)
Definition world_wf (w : World) : Prop :=
  RecyclePool.wf (_pool w) ∧
  Forall (λ o, o < length (objects w)) (RecyclePool.data (_pool w)).

(** ** How an operation changes the object store *)

(** What a method of the class makes of its receiver. *)
Inductive method_result (this : RenderData) : RenderData → Prop :=
| by_set_dataLength ds : method_result this (with_datas ds this)
| by_updateSizeNPivot width height pivotX pivotY :
    method_result this (updateSizeNPivot width height pivotX pivotY this)
| by_clear : method_result this (clear this).

(** An operation leaves the store as it is, replaces one object by what a
    method makes of it, or allocates one new instance at the end. *)
Inductive store_step (objs : list RenderData) : list RenderData → Prop :=
| store_same : store_step objs objs
| store_update o this this' :
    objs !! o = Some this → method_result this this' →
    store_step objs (<[o := this']> objs)
| store_alloc : store_step objs (objs ++ [RenderData_new]).

(** ** The vertex-record pool while growing *)

(** The state of a vertex-record pool that keeps the contract the spec gives
    it ([acquire] returns a record in default state): the live prefix fits in
    the backing storage and every spare record is in default state. *)
Definition pool_ready (vs : list IRenderData) (p : RecyclePool.t) : Prop :=
  RecyclePool.wf p ∧
  ∀ j o, RecyclePool.count p ≤ j → RecyclePool.data p !! j = Some o →
         vs !! o = Some IRenderData_new.

(** Nothing that was in the pool's storage or in the store is lost. *)
Definition resize_extends (st st' : Resize) : Prop :=
  (∀ j o, RecyclePool.data (rs_pool st) !! j = Some o →
          RecyclePool.data (rs_pool st') !! j = Some o) ∧
  (∀ o d, rs_vertices st !! o = Some d → rs_vertices st' !! o = Some d).

(** ** Scenarios *)

(** The world after [h = RenderData.add ()] on the module as loaded: the
    instance [data h] is object 0 at position 0 of [_pool]. *)
Definition world_one : World := (RenderData_add init_world).2.

(** [h.data.dataLength = 3; h.data.dataLength = 1] on that world. *)
Definition shrink_3_to_1 (c : RecyclePool.compaction) : option World :=
  w ← call_set_dataLength c 0 3 world_one;
  call_set_dataLength c 0 1 w.

(** A released instance written through a stale handle: [h1 = add ()],
    [remove (h1.pooID)], then [h1.data.updateSizeNPivot (10, 10, 0, 0)]. *)
Definition world_stale (c : RecyclePool.compaction) : option World :=
  w ← RenderData_remove c 0 world_one;
  call_method (updateSizeNPivot 10%float 10%float 0%float 0%float) 0 w.

(** ** Sequences of operations *)

(** The operations [ops] one after the other; an operation that throws ends
    the run. *)
Fixpoint run_all (c : RecyclePool.compaction) (ops : list Op) (w : World) : option World :=
  match ops with
  | [] => Some w
  | op :: ops => w' ← run c op w; run_all c ops w'
  end.

(** An array slot that holds a reference to one of the first [n] vertex
    records (and so is not a hole). *)
Definition slot_ok (n : nat) (s : option ref) : Prop :=
  match s with
  | Some v => v < n
  | None => False
  end.

(** What the setter works on is sound: the live prefix of the pool fits in
    its backing storage, the storage references existing vertex records, and
    the array is dense and references existing vertex records. *)
Definition resize_ok (st : Resize) : Prop :=
  RecyclePool.wf (rs_pool st) ∧
  Forall (λ v, v < length (rs_vertices st)) (RecyclePool.data (rs_pool st)) ∧
  Forall (slot_ok (length (rs_vertices st))) (rs_data st).

(** The same for a world: [_dataPool] is sound and the [datas] of every
    instance is dense and references existing vertex records. *)
Definition vertex_wf (w : World) : Prop :=
  RecyclePool.wf (_dataPool w) ∧
  Forall (λ v, v < length (vertices w)) (RecyclePool.data (_dataPool w)) ∧
  Forall (λ this, Forall (slot_ok (length (vertices w))) (datas this)) (objects w).

(** Two distinct instances hold the same vertex record. *)
Definition shares_record (w : World) : Prop :=
  ∃ o1 o2 this1 this2 v,
    o1 ≠ o2 ∧ objects w !! o1 = Some this1 ∧ objects w !! o2 = Some this2 ∧
    Some v ∈ datas this1 ∧ Some v ∈ datas this2.

(** [a = add (); b = add (); a.data.dataLength = 2; b.data.dataLength = 2;
    a.data.dataLength = 0; a.data.dataLength = 3]. *)
Definition shrink_then_grow : list Op :=
  [OpAdd; OpAdd; OpSetDataLength 0 2; OpSetDataLength 1 2;
   OpSetDataLength 0 0; OpSetDataLength 0 3].

(** ** The feature queries of [StatsQuery] *)

(** [class StatsQuery] keeps the parsed features in [_features], a plain
    object whose own properties map a feature id to a [Feature].  A property
    read [obj[key]] that finds no own property goes on to the prototype chain:
    [inherited key] tells whether the chain has the name ([constructor],
    [toString], [__proto__], ... for [Object.prototype]); what is found there
    is a function or an object without a [modules] array. *)
Module StatsQuery.

(** [interface Feature]. *)
Record Feature := { modules : list string }.

Section Features.

Variable inherited : string → bool.

(** [set.add(entry)] on a [Set<string>], kept in insertion order. *)
Definition set_add (set : list string) (entry : string) : list string :=
  if decide (entry ∈ set) then set else set ++ [entry].

(** [hasFeature (feature)]: [!!this._features[feature]]; a feature and
    whatever the prototype chain holds are both truthy. *)
Definition hasFeature (_features : gmap string Feature) (feature : string) : bool :=
  match _features !! feature with
  | Some _ => true
  | None => inherited feature
  end.

(** One turn of the loop of [getModulesOfFeatures]:
    [this._features[featureId]?.modules.forEach(entry => modules.add(entry))].
    An undefined feature is skipped by [?.]; a value from the prototype chain
    has no [modules], and the call of [forEach] on [undefined] throws
    ([None]). *)
Definition visit (_features : gmap string Feature)
    (acc : option (list string)) (featureId : string) : option (list string) :=
  set ← acc;
  match _features !! featureId with
  | Some feature => Some (foldl set_add set (modules feature))
  | None => if inherited featureId then None else Some set
  end.

(** [getModulesOfFeatures (featureIds)]: [Array.from] of the set. *)
Definition getModulesOfFeatures (_features : gmap string Feature)
    (featureIds : list string) : option (list string) :=
  foldl (visit _features) (Some []) featureIds.

End Features.

End StatsQuery.

(** The names [Object.prototype] has: the prototype chain of an object
    literal. *)
Definition Object_prototype (key : string) : bool :=
  bool_decide (key ∈ ["constructor"; "toString"; "toLocaleString"; "valueOf";
                      "hasOwnProperty"; "isPrototypeOf"; "propertyIsEnumerable";
                      "__proto__"; "__defineGetter__"; "__defineSetter__";
                      "__lookupGetter__"; "__lookupSetter__"]%string).

(** Two features that share a module. *)
Definition two_features : gmap string StatsQuery.Feature :=
  <["base" := {| StatsQuery.modules := ["cc/base"] |}]>
    (<["ui" := {| StatsQuery.modules := ["cc/base"; "cc/ui"] |}]> ∅)%string.

(** * Properties *)

(** ** Arrays and loops *)

Lemma array_set_end {A} (v : A) (arr : list (option A)) :
  array_set (length arr) v arr = arr ++ [Some v].
Proof.
  unfold array_set. case_decide; [lia|].
  by rewrite Nat.sub_diag.
Qed.

Lemma length_splice_one {A} (i : nat) (arr : list A) :
  length (splice i 1 arr) = if decide (i < length arr) then length arr - 1 else length arr.
Proof.
  unfold splice. rewrite length_app, length_take, length_drop.
  case_decide; lia.
Qed.

Lemma splice_beyond {A} (i n : nat) (arr : list A) :
  length arr ≤ i → splice i n arr = arr.
Proof.
  intros Hi. unfold splice.
  rewrite take_ge by done. rewrite drop_ge by lia. apply app_nil_r.
Qed.

Lemma indices_down_S (from to : nat) :
  to < S from → indices_down (S from) to = S from :: indices_down from to.
Proof.
  intros Hlt. unfold indices_down.
  replace (S from - to) with (S (from - to)) by lia.
  rewrite seq_S, rev_app_distr. simpl.
  do 2 f_equal. lia.
Qed.

Section Resize.

Variable compaction : RecyclePool.compaction.

Lemma grow_step_end st :
  ∃ o, rs_data (grow_step st (length (rs_data st))) = rs_data st ++ [Some o] ∧
       RecyclePool.count (rs_pool (grow_step st (length (rs_data st))))
         = S (RecyclePool.count (rs_pool st)).
Proof.
  unfold grow_step, RecyclePool.add.
  destruct (RecyclePool.data (rs_pool st) !! RecyclePool.count (rs_pool st)) as [o|];
    simpl; rewrite array_set_end; eauto.
Qed.

(** The growing loop appends one record per iteration and takes each from
    the pool. *)
Lemma grow_loop k : ∀ st,
  let st' := foldl grow_step st (seq (length (rs_data st)) k) in
  ∃ added, rs_data st' = rs_data st ++ (Some <$> added) ∧
           length added = k ∧
           RecyclePool.count (rs_pool st') = RecyclePool.count (rs_pool st) + k.
Proof.
  induction k as [|k IH]; intros st; simpl.
  - exists []. simpl. rewrite app_nil_r. auto with lia.
  - destruct (grow_step_end st) as (o & Hd & Hc).
    specialize (IH (grow_step st (length (rs_data st)))).
    rewrite Hd, length_app in IH. simpl in IH.
    replace (length (rs_data st) + 1) with (S (length (rs_data st))) in IH by lia.
    destruct IH as (added & Hd' & Hlen & Hc').
    exists (o :: added). simpl.
    rewrite Hd', <- app_assoc. simpl.
    repeat split; [lia | rewrite Hc', Hc; lia].
Qed.

(** The shrinking loop, over indices that start at or above the last
    element: the first call of [splice] may fall beyond the array. *)
Lemma shrink_loop to : ∀ from st,
  length (rs_data st) ≤ S from →
  let st' := foldl (shrink_step compaction) st (indices_down from to) in
  length (rs_data st') = if decide (to < from)
                         then length (rs_data st) `min` S to
                         else length (rs_data st).
Proof.
  induction from as [|from IH]; intros st Hlen st'; subst st'.
  - unfold indices_down. simpl. destruct (decide (to < 0)); lia.
  - destruct (decide (to < S from)) as [Hlt|Hge].
    + rewrite indices_down_S by done. simpl.
      specialize (IH (shrink_step compaction st (S from))).
      simpl in IH. rewrite length_splice_one in IH.
      rewrite IH by (destruct (decide (S from < length (rs_data st))); lia).
      destruct (decide (S from < length (rs_data st))), (decide (to < from)); lia.
    + unfold indices_down. replace (S from - to) with 0 by lia. done.
Qed.

(** The length of [_datas] after the setter: the target when growing or
    staying, one more than the target when shrinking. *)
Lemma set_dataLength_length n st :
  length (rs_data (set_dataLength compaction n st)) =
    if decide (n < length (rs_data st)) then S n else n.
Proof.
  unfold set_dataLength.
  destruct (Nat.eqb_spec (length (rs_data st)) n) as [Heq|Hne]; simpl.
  { case_decide; lia. }
  destruct (decide (n < length (rs_data st))) as [Hlt|Hge].
  - unfold indices_up at 1.
    replace (n - length (rs_data st)) with 0 by lia. simpl.
    rewrite shrink_loop by lia. case_decide; lia.
  - unfold indices_down.
    replace (length (rs_data st) - n) with 0 by lia. simpl.
    unfold indices_up.
    destruct (grow_loop (n - length (rs_data st)) st) as (added & Hd & Hlen & _).
    rewrite Hd, length_app, length_fmap. lia.
Qed.

End Resize.

(** ** Methods of an instance *)

(** C3: [updateSizeNPivot (width, height, pivotX, pivotY)], where "differs"
    is the source's [!==]: if any of the four arguments differs from the
    stored one, all four are stored, [vertDirty] becomes [true] and nothing
    else changes; if none differs the instance is left exactly as it was;
    [uvDirty] is never modified; and a second call with the same arguments
    leaves the instance, hence [vertDirty], as the first call left it. *)
Theorem updateSizeNPivot_spec (width height pivotX pivotY : number) (this : RenderData) :
  let differs := strict_neq width (_width this) || strict_neq height (_height this) ||
                 strict_neq pivotX (_pivotX this) || strict_neq pivotY (_pivotY this) in
  let this' := updateSizeNPivot width height pivotX pivotY this in
  (differs = true →
     _width this' = width ∧ _height this' = height ∧
     _pivotX this' = pivotX ∧ _pivotY this' = pivotY ∧
     vertDirty this' = true ∧
     material this' = material this ∧ vertexCount this' = vertexCount this ∧
     indiceCount this' = indiceCount this ∧
     _datas this' = _datas this ∧ _indices this' = _indices this) ∧
  (differs = false → this' = this) ∧
  uvDirty this' = uvDirty this ∧
  updateSizeNPivot width height pivotX pivotY this' = this'.
Proof.
  intros differs this'. subst this'. unfold updateSizeNPivot.
  fold differs. destruct differs eqn:Hd.
  - split; [intros _; by repeat split|].
    split; [done|]. split; [done|]. simpl.
    clear Hd differs. case_match; reflexivity.
  - split; [done|]. split; [done|]. split; [done|].
    subst differs. by rewrite Hd.
Qed.

(** X3: when the consumer has set [vertDirty] (to either value) between two
    calls of [updateSizeNPivot] with the same arguments, none of them [NaN],
    the second call changes nothing: a flag cleared by the consumer stays
    clean. *)
Lemma updateSizeNPivot_no_redirty (width height pivotX pivotY : number)
    (this : RenderData) (flag : bool) :
  strict_neq width width = false → strict_neq height height = false →
  strict_neq pivotX pivotX = false → strict_neq pivotY pivotY = false →
  let this1 := updateSizeNPivot width height pivotX pivotY this in
  let this2 :=
    {| material := material this1; vertexCount := vertexCount this1;
       indiceCount := indiceCount this1;
       uvDirty := uvDirty this1; vertDirty := flag;
       _datas := _datas this1; _indices := _indices this1;
       _pivotX := _pivotX this1; _pivotY := _pivotY this1;
       _width := _width this1; _height := _height this1 |} in
  updateSizeNPivot width height pivotX pivotY this2 = this2.
Proof.
  intros Hw Hh Hx Hy this1 this2. subst this2 this1.
  unfold updateSizeNPivot.
  destruct (strict_neq width (_width this) || strict_neq height (_height this) ||
            strict_neq pivotX (_pivotX this) || strict_neq pivotY (_pivotY this)) eqn:Hd;
    simpl.
  - by rewrite Hw, Hh, Hx, Hy.
  - by rewrite Hd.
Qed.

(** [clear] yields the state of a new instance, whatever the instance was. *)
Lemma clear_new (this : RenderData) : clear this = RenderData_new.
Proof. reflexivity. Qed.

(** C4: after [clear ()], for every prior state: [datas] and [indices] are
    empty, pivot and size are 0, both dirty flags are [true], [material] is
    null and both counts are 0; a second [clear ()] leaves the state
    identical. *)
Theorem clear_spec (this : RenderData) :
  let this' := clear this in
  dataLength this' = 0 ∧ length (_indices this') = 0 ∧
  _pivotX this' = 0%float ∧ _pivotY this' = 0%float ∧
  _width this' = 0%float ∧ _height this' = 0%float ∧
  uvDirty this' = true ∧ vertDirty this' = true ∧
  material this' = None ∧
  vertexCount this' = 0%float ∧ indiceCount this' = 0%float ∧
  clear this' = this'.
Proof. by repeat split. Qed.

(** ** Operations on the object store *)

Lemma run_store_step c op w w' :
  run c op w = Some w' → store_step (objects w) (objects w').
Proof.
  destruct op as [o n|o width height pivotX pivotY|o| |idx]; simpl.
  - unfold call_set_dataLength.
    destruct (objects w !! o) as [this|] eqn:Ho; [|done].
    simpl. intros [= <-]. simpl. eapply store_update; [done|constructor].
  - unfold call_method.
    destruct (objects w !! o) as [this|] eqn:Ho; [|done].
    simpl. intros [= <-]. simpl. eapply store_update; [done|constructor].
  - unfold call_method.
    destruct (objects w !! o) as [this|] eqn:Ho; [|done].
    simpl. intros [= <-]. simpl. eapply store_update; [done|constructor].
  - unfold RenderData_add, RecyclePool.add.
    destruct (RecyclePool.data (_pool w) !! RecyclePool.count (_pool w));
      intros [= <-]; simpl; constructor.
  - unfold RenderData_remove.
    destruct (RecyclePool.data (_pool w) !! idx) as [o|]; [|done]. simpl.
    destruct (objects w !! o) as [this|] eqn:Ho; [|done].
    simpl. intros [= <-]. simpl. eapply store_update; [done|constructor].
Qed.

(** Every object of the store survives a step, as itself or as what a
    method made of it. *)
Lemma store_step_lookup objs objs' o this :
  store_step objs objs' → objs !! o = Some this →
  objs' !! o = Some this ∨ ∃ this', objs' !! o = Some this' ∧ method_result this this'.
Proof.
  intros Hstep Ho. destruct Hstep as [|o0 this0 this' Ho0 Hm|].
  - by left.
  - destruct (decide (o0 = o)) as [->|Hne].
    + right. exists this'. split.
      * apply list_lookup_insert_eq. by eapply lookup_lt_Some.
      * congruence.
    + left. by rewrite list_lookup_insert_ne.
  - left. by apply lookup_app_l_Some.
Qed.

Lemma method_result_dirty this this' :
  method_result this this' →
  (uvDirty this = true → uvDirty this' = true) ∧
  (vertDirty this = true → vertDirty this' = true).
Proof.
  intros [ds|width height pivotX pivotY|]; simpl; [done| |done].
  unfold updateSizeNPivot. by destruct (_ || _ || _ || _).
Qed.

Lemma method_result_indices this this' :
  method_result this this' → _indices this = [] → _indices this' = [].
Proof.
  intros [ds|width height pivotX pivotY|]; simpl; [done| |done].
  unfold updateSizeNPivot. by destruct (_ || _ || _ || _).
Qed.

(** ** The [dataLength] setter *)

(** C1: the setter does not always leave [datas.length] equal to the value
    assigned: on an instance of three records, [dataLength = 1] leaves two
    records (the first [splice] of the shrinking loop falls beyond the array
    and removes nothing). *)
Theorem dataLength_shrink_3_to_1 (c : RecyclePool.compaction) :
  (w3 ← call_set_dataLength c 0 3 world_one; dataLength <$> objects w3 !! 0) = Some 3 ∧
  (w1 ← shrink_3_to_1 c; dataLength <$> objects w1 !! 0) = Some 2.
Proof. by destruct c. Qed.

(** C2: shrinking from M = 3 to N = 1 removes one record from [datas], not
    M - N = 2: the first two records stay, and the size of [_dataPool] goes
    from 3 to 2. *)
Theorem dataLength_shrink_removes_one (c : RecyclePool.compaction) :
  (w3 ← call_set_dataLength c 0 3 world_one;
   this ← objects w3 !! 0;
   Some (datas this, RecyclePool.length (_dataPool w3)))
    = Some ([Some 0; Some 1; Some 2], 3) ∧
  (w1 ← shrink_3_to_1 c;
   this ← objects w1 !! 0;
   Some (datas this, RecyclePool.length (_dataPool w1)))
    = Some ([Some 0; Some 1], 2).
Proof. by destruct c. Qed.

(** The setter on a live instance always returns, and [datas.length] is then
    the value assigned when growing or staying, one more when shrinking. *)
Lemma call_set_dataLength_length c o n w this :
  objects w !! o = Some this →
  ∃ w' this', call_set_dataLength c o n w = Some w' ∧
    objects w' !! o = Some this' ∧
    dataLength this' = if decide (n < dataLength this) then S n else n.
Proof.
  intros Ho. unfold call_set_dataLength. rewrite Ho. simpl.
  eexists _, _. split; [done|]. simpl. split.
  - apply list_lookup_insert_eq. by eapply lookup_lt_Some.
  - unfold dataLength. simpl. by rewrite set_dataLength_length.
Qed.

(** Growing from M to N > M appends N - M records, each taken from
    [_dataPool], whose size grows by N - M. *)
Lemma call_set_dataLength_grow c o n w this :
  objects w !! o = Some this → dataLength this < n →
  ∃ added w', call_set_dataLength c o n w = Some w' ∧
    objects w' !! o = Some (with_datas (datas this ++ (Some <$> added)) this) ∧
    length added = n - dataLength this ∧
    RecyclePool.length (_dataPool w') =
      RecyclePool.length (_dataPool w) + (n - dataLength this).
Proof.
  intros Ho Hlt. unfold call_set_dataLength. rewrite Ho. simpl.
  unfold set_dataLength. simpl. unfold dataLength in Hlt.
  destruct (Nat.eqb_spec (length (_datas this)) n) as [Heq|Hne]; [lia|]. simpl.
  unfold indices_down. replace (length (_datas this) - n) with 0 by lia. simpl.
  set (st := {| rs_data := _datas this; rs_vertices := vertices w;
                rs_pool := _dataPool w |}).
  unfold indices_up. change (length (_datas this)) with (length (rs_data st)).
  destruct (grow_loop (n - length (rs_data st)) st) as (added & Hd & Hlen & Hc).
  remember (foldl grow_step st (seq (length (rs_data st)) (n - length (rs_data st))))
    as st' eqn:Hst'.
  exists added. eexists. split; [done|]. unfold RecyclePool.length. simpl.
  rewrite Hd, Hc. split; [|done].
  apply list_lookup_insert_eq. by eapply lookup_lt_Some.
Qed.

(** C7: the setter leaves [uvDirty], [vertDirty], [indices], pivot, size,
    [material] and the counts of its receiver unchanged, and changes neither
    another instance nor [_pool]: it mutates only the [datas] sequence (and
    [_dataPool]). *)
Theorem set_dataLength_frame c o n w w' :
  call_set_dataLength c o n w = Some w' →
  ∃ this this', objects w !! o = Some this ∧ objects w' !! o = Some this' ∧
    uvDirty this' = uvDirty this ∧ vertDirty this' = vertDirty this ∧
    _indices this' = _indices this ∧
    _pivotX this' = _pivotX this ∧ _pivotY this' = _pivotY this ∧
    _width this' = _width this ∧ _height this' = _height this ∧
    material this' = material this ∧
    vertexCount this' = vertexCount this ∧ indiceCount this' = indiceCount this ∧
    (∀ o', o' ≠ o → objects w' !! o' = objects w !! o') ∧
    _pool w' = _pool w.
Proof.
  unfold call_set_dataLength.
  destruct (objects w !! o) as [this|] eqn:Ho; [|done].
  simpl. intros [= <-]. simpl.
  eexists this, _. split; [done|]. split.
  { apply list_lookup_insert_eq. by eapply lookup_lt_Some. }
  simpl. repeat split; try done.
  intros o' Hne. by apply list_lookup_insert_ne.
Qed.

Lemma set_dataLength_frame_witness :
  ∃ w', call_set_dataLength RecyclePool.SwapWithLast 0 3 world_one = Some w' ∧
        _pool w' = _pool world_one.
Proof.
  eexists. split; [reflexivity|].
  destruct (set_dataLength_frame RecyclePool.SwapWithLast 0 3 world_one _ eq_refl)
    as (this & this' & H).
  apply H.
Defined.

(** ** Dirty flags *)

(** C8: no operation of the class (the [dataLength] setter,
    [updateSizeNPivot], [clear], static [add], static [remove]) sets a dirty
    flag from [true] to [false]: an instance whose [uvDirty] (or [vertDirty])
    is [true] before the operation still has it [true] after. *)
Theorem dirty_flags_never_cleared c op w w' o this :
  run c op w = Some w' → objects w !! o = Some this →
  ∃ this', objects w' !! o = Some this' ∧
    (uvDirty this = true → uvDirty this' = true) ∧
    (vertDirty this = true → vertDirty this' = true).
Proof.
  intros Hrun Ho.
  destruct (store_step_lookup _ _ _ _ (run_store_step _ _ _ _ Hrun) Ho)
    as [Hsame|(this' & Ho' & Hm)].
  - by exists this.
  - exists this'. split; [done|]. by apply method_result_dirty.
Qed.

Lemma dirty_flags_never_cleared_witness :
  ∃ this', objects world_one !! 0 = Some this' ∧
    (uvDirty RenderData_new = true → uvDirty this' = true) ∧
    (vertDirty RenderData_new = true → vertDirty this' = true).
Proof.
  apply (dirty_flags_never_cleared RecyclePool.SwapWithLast OpAdd
           init_world world_one 0 RenderData_new); reflexivity.
Defined.

(** ** The index sequence *)

Lemma store_step_indices objs objs' :
  store_step objs objs' →
  Forall (λ this, _indices this = []) objs →
  Forall (λ this, _indices this = []) objs'.
Proof.
  intros [|o this this' Ho Hm|] Hall.
  - done.
  - apply Forall_insert; [done|].
    eapply method_result_indices; [done|].
    by apply (Forall_lookup_1 (λ this, _indices this = []) objs o this).
  - apply Forall_app. split; [done|]. by constructor.
Qed.

Lemma reachable_indices c w :
  reachable c w → Forall (λ this, _indices this = []) (objects w).
Proof.
  induction 1 as [|w op w' _ IH Hrun|w o this this' _ IH Ho Hcw].
  - change (objects init_world) with (replicate 32 RenderData_new).
    by apply Forall_replicate.
  - eapply store_step_indices; [|done]. by eapply run_store_step.
  - simpl. apply Forall_insert; [done|].
    destruct Hcw as [-> _].
    by apply (Forall_lookup_1 (λ this, _indices this = []) (objects w) o this).
Qed.

(** C10: in every state reachable through the operations of the class (and
    through the writes a consumer can make to public fields and to [datas]),
    the [indices] sequence of every instance is empty. *)
Theorem indices_always_empty c w o this :
  reachable c w → objects w !! o = Some this → _indices this = [].
Proof.
  intros Hreach Ho.
  apply (Forall_lookup_1 (λ this, _indices this = []) (objects w) o this); [|done].
  by apply (reachable_indices c).
Qed.

Lemma reachable_shrink_3_to_1 c w :
  shrink_3_to_1 c = Some w → reachable c w.
Proof.
  unfold shrink_3_to_1. intros Hw.
  destruct (call_set_dataLength c 0 3 world_one) as [w3|] eqn:Hw3; [|done].
  apply (reach_run _ w3 (OpSetDataLength 0 1)); [|done].
  apply (reach_run _ world_one (OpSetDataLength 0 3)); [|done].
  apply (reach_run _ init_world OpAdd); [|done].
  apply reach_init.
Qed.

Lemma indices_always_empty_witness :
  _indices (with_datas [Some 0; Some 1] RenderData_new) = [].
Proof.
  apply (indices_always_empty RecyclePool.SwapWithLast
           (default init_world (shrink_3_to_1 RecyclePool.SwapWithLast)) 0).
  - by apply reachable_shrink_3_to_1.
  - reflexivity.
Defined.

(** ** The pool primitive *)

(** [add] either reuses the first spare slot or, when no spare slot is left,
    allocates one object and appends it to the backing storage. *)
Lemma pool_add_cases {T} (fn : T) (store : list T) (p : RecyclePool.t) :
  RecyclePool.wf p →
  (∃ o, RecyclePool.data p !! RecyclePool.count p = Some o ∧
        RecyclePool.add fn store p =
          (o, store, RecyclePool.mk (RecyclePool.data p) (S (RecyclePool.count p)))) ∨
  (RecyclePool.count p = length (RecyclePool.data p) ∧
   RecyclePool.add fn store p =
     (length store, store ++ [fn],
      RecyclePool.mk (RecyclePool.data p ++ [length store]) (S (RecyclePool.count p)))).
Proof.
  intros Hwf. unfold RecyclePool.add.
  destruct (RecyclePool.data p !! RecyclePool.count p) as [o|] eqn:Hc.
  - left. by exists o.
  - right. split; [|done].
    apply lookup_ge_None_1 in Hc. unfold RecyclePool.wf in Hwf. lia.
Qed.

Lemma swap_same (i : nat) (l : list ref) : RecyclePool.swap i i l = l.
Proof.
  unfold RecyclePool.swap. destruct (l !! i) as [o|] eqn:Hi; [|done].
  rewrite list_insert_insert_eq. by apply list_insert_id.
Qed.

Lemma shift_left_last (idx : nat) (l : list ref) :
  RecyclePool.shift_left idx (S idx) l = l.
Proof.
  unfold RecyclePool.shift_left. destruct (l !! idx) as [o|] eqn:Hi; [|done].
  rewrite (drop_ge (take (S idx) l)) by (rewrite length_take; lia).
  simpl. by apply take_drop_middle.
Qed.

(** Releasing the element acquired last leaves the backing storage as it is,
    under either compaction strategy. *)
Lemma removeAt_last c (l : list ref) (idx : nat) :
  RecyclePool.removeAt c idx (RecyclePool.mk l (S idx)) = RecyclePool.mk l idx.
Proof.
  unfold RecyclePool.removeAt. simpl.
  rewrite decide_True by lia. rewrite Nat.sub_0_r.
  destruct c; by rewrite ?swap_same, ?shift_left_last.
Qed.

Lemma removeAt_length c idx p :
  idx < RecyclePool.length p →
  RecyclePool.length (RecyclePool.removeAt c idx p) = RecyclePool.length p - 1.
Proof.
  unfold RecyclePool.length, RecyclePool.removeAt. intros Hlt.
  rewrite decide_True by done. by destruct c.
Qed.

(** ** Acquisition and release *)

(** C6: [RenderData.add ()] returns a handle whose [pooID] is the position
    of the returned instance in the backing storage of [_pool] at the moment
    of acquisition, computed as the pool's length minus one, and whose [data]
    is the instance stored at that position. *)
Theorem add_handle_position w h w' :
  world_wf w → RenderData_add w = (h, w') →
  pooID h = RecyclePool.length (_pool w') - 1 ∧
  RecyclePool.length (_pool w') = S (RecyclePool.length (_pool w)) ∧
  RecyclePool.data (_pool w') !! pooID h = Some (data h) ∧
  is_Some (objects w' !! data h).
Proof.
  intros [Hwf Hrefs]. unfold RenderData_add.
  destruct (pool_add_cases RenderData_new (objects w) (_pool w) Hwf)
    as [(o & Ho & ->)|[Hfull ->]]; intros [= <- <-]; simpl;
    unfold RecyclePool.length; simpl; rewrite Nat.sub_0_r.
  - repeat split; [done|].
    apply lookup_lt_is_Some_2.
    by apply (Forall_lookup_1 (λ o, o < length (objects w)) _ _ _ Hrefs Ho).
  - repeat split.
    + rewrite Hfull. by apply list_lookup_middle.
    + apply lookup_lt_is_Some_2. rewrite length_app. simpl. lia.
Qed.

Lemma world_wf_init : world_wf init_world.
Proof.
  split.
  - unfold RecyclePool.wf. simpl. lia.
  - change (RecyclePool.data (_pool init_world)) with (seq 0 32).
    change (objects init_world) with (replicate 32 RenderData_new).
    apply Forall_forall. intros o Ho.
    apply elem_of_seq in Ho. rewrite length_replicate. lia.
Qed.

Lemma add_handle_position_witness :
  pooID (RenderData_add init_world).1 = 0 ∧
  RecyclePool.data (_pool world_one) !! 0 = Some (data (RenderData_add init_world).1).
Proof.
  destruct (add_handle_position init_world (RenderData_add init_world).1 world_one
              world_wf_init eq_refl) as (Hid & _ & Hpos & _).
  split; [exact Hid | exact Hpos].
Defined.

(** C9: [RenderData.add ()] resets nothing: every instance of the store,
    the one handed out included, has after the call the state it had before;
    a reused slot is handed out exactly as the pool stored it. *)
Theorem add_no_reset w h w' :
  RenderData_add w = (h, w') →
  (∀ o this, objects w !! o = Some this → objects w' !! o = Some this) ∧
  (∀ o, RecyclePool.data (_pool w) !! RecyclePool.length (_pool w) = Some o →
        data h = o ∧ objects w' = objects w).
Proof.
  unfold RenderData_add, RecyclePool.add, RecyclePool.length.
  destruct (RecyclePool.data (_pool w) !! RecyclePool.count (_pool w)) as [o|];
    intros [= <- <-]; simpl.
  - split; [done|]. by intros ? [= ->].
  - split; [|done]. intros o this Ho. by apply lookup_app_l_Some.
Qed.

(** The next acquisition hands that instance out as it is, size 10 and all. *)
Lemma add_no_reset_witness :
  objects (RenderData_add (default init_world (world_stale RecyclePool.SwapWithLast))).2
    !! data (RenderData_add (default init_world (world_stale RecyclePool.SwapWithLast))).1
  = Some (updateSizeNPivot 10%float 10%float 0%float 0%float RenderData_new).
Proof.
  apply (add_no_reset (default init_world (world_stale RecyclePool.SwapWithLast))
           (RenderData_add (default init_world (world_stale RecyclePool.SwapWithLast))).1
           (RenderData_add (default init_world (world_stale RecyclePool.SwapWithLast))).2).
  - reflexivity.
  - reflexivity.
Defined.

(** C5: [RenderData.remove (pooID)] calls [clear ()] on the instance stored
    at index [pooID] of the backing storage of [_pool] and removes that slot
    from the pool; and after acquire [h1], release [h1], acquire [h2], the
    instance [h2] refers to is in the fully-cleared default state, under
    either compaction strategy. *)
Theorem remove_clears_then_reuse c w :
  world_wf w →
  (∀ idx, idx < length (RecyclePool.data (_pool w)) →
     is_Some (RenderData_remove c idx w)) ∧
  (∀ idx w', RenderData_remove c idx w = Some w' →
     ∃ o this, RecyclePool.data (_pool w) !! idx = Some o ∧
       objects w !! o = Some this ∧
       objects w' = <[o := clear this]> (objects w) ∧
       objects w' !! o = Some RenderData_new ∧
       _pool w' = RecyclePool.removeAt c idx (_pool w) ∧
       (idx < RecyclePool.length (_pool w) →
        RecyclePool.length (_pool w') = RecyclePool.length (_pool w) - 1)) ∧
  ∃ w2, RenderData_remove c (pooID (RenderData_add w).1) (RenderData_add w).2 = Some w2 ∧
        objects (RenderData_add w2).2 !! data (RenderData_add w2).1 = Some RenderData_new.
Proof.
  intros [Hwf Hrefs]. split; [|split].
  - intros idx Hidx. unfold RenderData_remove.
    destruct (lookup_lt_is_Some_2 _ _ Hidx) as [o Ho]. rewrite Ho. simpl.
    pose proof (Forall_lookup_1 (λ o, o < length (objects w)) _ _ _ Hrefs Ho) as Hlt.
    destruct (lookup_lt_is_Some_2 _ _ Hlt) as [this Hthis].
    rewrite Hthis. by eexists.
  - intros idx w'. unfold RenderData_remove.
    destruct (RecyclePool.data (_pool w) !! idx) as [o|] eqn:Hidx; [|done]. simpl.
    destruct (objects w !! o) as [this|] eqn:Ho; [|done]. simpl.
    intros [= <-]. simpl. exists o, this.
    do 3 (split; [done|]). split.
    { apply list_lookup_insert_eq. by eapply lookup_lt_Some. }
    split; [done|]. by apply removeAt_length.
  - unfold RenderData_add at 1 2.
    destruct (pool_add_cases RenderData_new (objects w) (_pool w) Hwf)
      as [(o & Ho & ->)|[Hfull ->]]; simpl;
      unfold RecyclePool.length; simpl; rewrite Nat.sub_0_r;
      unfold RenderData_remove; simpl.
    + rewrite Ho. simpl.
      pose proof (Forall_lookup_1 (λ o, o < length (objects w)) _ _ _ Hrefs Ho) as Hlt.
      destruct (lookup_lt_is_Some_2 _ _ Hlt) as [this Hthis].
      rewrite Hthis. simpl. eexists. split; [done|].
      rewrite removeAt_last.
      unfold RenderData_add, RecyclePool.add. simpl. rewrite Ho. simpl.
      by apply list_lookup_insert_eq.
    + rewrite Hfull, list_lookup_middle by done. simpl.
      rewrite list_lookup_middle by done. simpl.
      eexists. split; [done|].
      rewrite removeAt_last.
      unfold RenderData_add, RecyclePool.add. simpl.
      rewrite list_lookup_middle by done. simpl.
      apply list_lookup_insert_eq. rewrite length_app. simpl. lia.
Qed.

Lemma remove_clears_then_reuse_witness :
  ∃ w2, RenderData_remove RecyclePool.ShiftLeft 0 world_one = Some w2 ∧
        objects (RenderData_add w2).2 !! data (RenderData_add w2).1 = Some RenderData_new.
Proof.
  exact (proj2 (proj2
    (remove_clears_then_reuse RecyclePool.ShiftLeft init_world world_wf_init))).
Defined.

(** ** Reachable worlds are well formed *)

Lemma removeAt_wf c idx p :
  RecyclePool.wf p → RecyclePool.wf (RecyclePool.removeAt c idx p).
Proof.
  unfold RecyclePool.wf, RecyclePool.removeAt. intros Hwf.
  destruct (decide (idx < RecyclePool.count p)) as [Hlt|]; [|done].
  destruct c; simpl.
  - unfold RecyclePool.shift_left.
    destruct (RecyclePool.data p !! idx); [|lia].
    rewrite !length_app, length_drop, !length_take. simpl.
    rewrite length_drop. lia.
  - unfold RecyclePool.swap.
    destruct (RecyclePool.data p !! idx); [|lia].
    destruct (RecyclePool.data p !! (RecyclePool.count p - 1)); [|lia].
    rewrite !length_insert. lia.
Qed.

Lemma removeAt_Forall (P : nat → Prop) c idx p :
  Forall P (RecyclePool.data p) →
  Forall P (RecyclePool.data (RecyclePool.removeAt c idx p)).
Proof.
  unfold RecyclePool.removeAt. intros Hall.
  destruct (decide (idx < RecyclePool.count p)); [|done].
  destruct c; simpl.
  - unfold RecyclePool.shift_left.
    destruct (RecyclePool.data p !! idx) as [o|] eqn:Ho; [|done].
    apply Forall_app_2; [by apply Forall_take|].
    apply Forall_app_2; [by apply Forall_drop, Forall_take|].
    apply Forall_cons. split; [|by apply Forall_drop].
    by apply (Forall_lookup_1 P _ _ _ Hall Ho).
  - unfold RecyclePool.swap.
    destruct (RecyclePool.data p !! idx) as [o1|] eqn:Ho1; [|done].
    destruct (RecyclePool.data p !! (RecyclePool.count p - 1)) as [o2|] eqn:Ho2; [|done].
    apply Forall_insert; [apply Forall_insert; [done|]|].
    + by apply (Forall_lookup_1 P _ _ _ Hall Ho2).
    + by apply (Forall_lookup_1 P _ _ _ Hall Ho1).
Qed.

Lemma run_wf c op w w' :
  run c op w = Some w' → world_wf w → world_wf w'.
Proof.
  intros Hrun [Hwf Hrefs]. unfold world_wf.
  destruct op as [o n|o width height pivotX pivotY|o| |idx]; simpl in Hrun.
  - unfold call_set_dataLength in Hrun.
    destruct (objects w !! o); [|done]. injection Hrun as <-. simpl.
    by rewrite length_insert.
  - unfold call_method in Hrun.
    destruct (objects w !! o); [|done]. injection Hrun as <-. simpl.
    by rewrite length_insert.
  - unfold call_method in Hrun.
    destruct (objects w !! o); [|done]. injection Hrun as <-. simpl.
    by rewrite length_insert.
  - injection Hrun as <-. unfold RenderData_add.
    destruct (pool_add_cases RenderData_new (objects w) (_pool w) Hwf)
      as [(o & Ho & ->)|[Hfull ->]]; simpl; unfold RecyclePool.wf; simpl.
    + split; [|done]. apply lookup_lt_Some in Ho. lia.
    + rewrite !length_app. simpl. split; [lia|].
      apply Forall_app_2.
      * eapply Forall_impl; [done|]. simpl. lia.
      * apply Forall_singleton. lia.
  - unfold RenderData_remove in Hrun.
    destruct (RecyclePool.data (_pool w) !! idx) as [o|]; [|done]. simpl in Hrun.
    destruct (objects w !! o); [|done]. injection Hrun as <-. simpl.
    rewrite length_insert. split; [by apply removeAt_wf|by apply removeAt_Forall].
Qed.

(** In every reachable state the live prefix of [_pool] fits in its backing
    storage, whose references all point to instances of the store: the
    hypothesis of the theorems on acquisition and release holds there. *)
Lemma reachable_wf c w : reachable c w → world_wf w.
Proof.
  induction 1 as [|w op w' _ IH Hrun|w o this this' _ IH Ho Hcw].
  - apply world_wf_init.
  - by eapply run_wf.
  - destruct IH as [Hwf Hrefs]. split; [done|]. simpl. by rewrite length_insert.
Qed.

(** ** What else changes [datas] *)


(** [clear] twice on the same instance gives the world [clear] once gave. *)
Lemma call_clear_idempotent o w w' :
  call_method clear o w = Some w' → call_method clear o w' = Some w'.
Proof.
  unfold call_method.
  destruct (objects w !! o) as [this|] eqn:Ho; [|done]. simpl. intros [= <-]. simpl.
  rewrite list_lookup_insert_eq by (by eapply lookup_lt_Some). simpl.
  by rewrite list_insert_insert_eq.
Qed.

(** ** Growing takes default-state records from the pool *)

Lemma grow_step_pool st :
  pool_ready (rs_vertices st) (rs_pool st) →
  ∃ o, rs_data (grow_step st (length (rs_data st))) = rs_data st ++ [Some o] ∧
    RecyclePool.data (rs_pool (grow_step st (length (rs_data st))))
      !! RecyclePool.count (rs_pool st) = Some o ∧
    rs_vertices (grow_step st (length (rs_data st))) !! o = Some IRenderData_new ∧
    RecyclePool.count (rs_pool (grow_step st (length (rs_data st))))
      = S (RecyclePool.count (rs_pool st)) ∧
    pool_ready (rs_vertices (grow_step st (length (rs_data st))))
               (rs_pool (grow_step st (length (rs_data st)))) ∧
    resize_extends st (grow_step st (length (rs_data st))).
Proof.
  intros [Hwf Hspare]. unfold grow_step.
  destruct (pool_add_cases IRenderData_new (rs_vertices st) (rs_pool st) Hwf)
    as [(o & Ho & ->)|[Hfull ->]]; simpl; rewrite array_set_end.
  - exists o. do 2 (split; [done|]).
    split; [by apply (Hspare (RecyclePool.count (rs_pool st)) o)|].
    split; [done|]. split; [|by split]. split.
    + unfold RecyclePool.wf. simpl. apply lookup_lt_Some in Ho. lia.
    + simpl. intros j o' Hj. apply Hspare. lia.
  - exists (length (rs_vertices st)). split; [done|].
    split; [rewrite Hfull; by apply list_lookup_middle|].
    split; [by apply list_lookup_middle|].
    split; [done|]. split; [split|split].
    + unfold RecyclePool.wf. simpl. rewrite length_app. simpl. lia.
    + simpl. intros j o' Hj Hlook.
      apply lookup_lt_Some in Hlook. rewrite length_app in Hlook. simpl in Hlook. lia.
    + simpl. intros j o' Hlook. by apply lookup_app_l_Some.
    + simpl. intros o' d Hlook. by apply lookup_app_l_Some.
Qed.

Lemma grow_loop_pool k : ∀ st,
  pool_ready (rs_vertices st) (rs_pool st) →
  ∃ added,
    rs_data (foldl grow_step st (seq (length (rs_data st)) k))
      = rs_data st ++ (Some <$> added) ∧
    length added = k ∧
    resize_extends st (foldl grow_step st (seq (length (rs_data st)) k)) ∧
    ∀ j o, added !! j = Some o →
      RecyclePool.data (rs_pool (foldl grow_step st (seq (length (rs_data st)) k)))
        !! (RecyclePool.count (rs_pool st) + j) = Some o ∧
      rs_vertices (foldl grow_step st (seq (length (rs_data st)) k)) !! o
        = Some IRenderData_new.
Proof.
  induction k as [|k IH]; intros st Hready; simpl.
  - exists []. simpl. rewrite app_nil_r. by repeat split.
  - destruct (grow_step_pool st Hready) as (o & Hd & Ho & Hv & Hc & Hready' & Hext).
    specialize (IH (grow_step st (length (rs_data st))) Hready').
    rewrite Hd, length_app in IH. simpl in IH.
    replace (length (rs_data st) + 1) with (S (length (rs_data st))) in IH by lia.
    destruct IH as (added & Hd' & Hlen & Hext' & Hadded).
    exists (o :: added). rewrite Hd', <- app_assoc. simpl.
    split; [done|]. split; [lia|]. split.
    + destruct Hext as [He1 He2], Hext' as [He1' He2']. split; eauto.
    + intros [|j] o'; simpl.
      * intros [= <-]. rewrite Nat.add_0_r.
        destruct Hext' as [He1' He2']. eauto.
      * intros Hj. destruct (Hadded j o' Hj) as [Hp Hq].
        rewrite Hc in Hp. by replace (RecyclePool.count (rs_pool st) + S j)
          with (S (RecyclePool.count (rs_pool st)) + j) by lia.
Qed.

(** X1: growing from M to N > M, on a pool that keeps its contract: the
    setter returns, [datas] has length N, the N - M appended records are the
    next N - M slots of [_dataPool], each in default state, and the size of
    [_dataPool] grows by N - M. *)
Lemma call_set_dataLength_grow_pool c o n w this :
  objects w !! o = Some this → dataLength this < n →
  pool_ready (vertices w) (_dataPool w) →
  ∃ added w', call_set_dataLength c o n w = Some w' ∧
    objects w' !! o = Some (with_datas (datas this ++ (Some <$> added)) this) ∧
    length (datas this ++ (Some <$> added)) = n ∧
    length added = n - dataLength this ∧
    RecyclePool.length (_dataPool w') =
      RecyclePool.length (_dataPool w) + (n - dataLength this) ∧
    ∀ j v, added !! j = Some v →
      RecyclePool.data (_dataPool w') !! (RecyclePool.length (_dataPool w) + j) = Some v ∧
      vertices w' !! v = Some IRenderData_new.
Proof.
  intros Ho Hlt Hready.
  destruct (call_set_dataLength_grow c o n w this Ho Hlt)
    as (added0 & w' & Hcall & Hobj & Hlen0 & Hcount).
  unfold call_set_dataLength in Hcall. rewrite Ho in Hcall. simpl in Hcall.
  unfold set_dataLength in Hcall. simpl in Hcall. unfold dataLength in *.
  destruct (Nat.eqb_spec (length (_datas this)) n) as [Heq|Hne]; [lia|].
  simpl in Hcall. unfold indices_down in Hcall.
  replace (length (_datas this) - n) with 0 in Hcall by lia. simpl in Hcall.
  set (st := {| rs_data := _datas this; rs_vertices := vertices w;
                rs_pool := _dataPool w |}) in *.
  unfold indices_up in Hcall.
  destruct (grow_loop_pool (n - length (_datas this)) st Hready)
    as (added & Hd & Hlen & _ & Hadded).
  change (length (rs_data st)) with (length (_datas this)) in Hd, Hadded.
  injection Hcall as <-.
  exists added. eexists. split.
  { unfold call_set_dataLength. rewrite Ho. simpl. unfold set_dataLength. simpl.
    destruct (Nat.eqb_spec (length (_datas this)) n) as [Heq|_]; [lia|]. simpl.
    unfold indices_down. replace (length (_datas this) - n) with 0 by lia.
    reflexivity. }
  simpl. fold st. unfold indices_up. rewrite Hd.
  split. { apply list_lookup_insert_eq. by eapply lookup_lt_Some. }
  split. { unfold datas. rewrite length_app, length_fmap. lia. }
  split; [done|]. split; [by rewrite <- Hcount|].
  exact Hadded.
Qed.

(** The module as loaded keeps the pool's contract: all 128 records of
    [_dataPool] are spare and in default state. *)
Lemma pool_ready_world_one : pool_ready (vertices world_one) (_dataPool world_one).
Proof.
  change (vertices world_one) with (replicate 128 IRenderData_new).
  change (_dataPool world_one) with (RecyclePool.mk (seq 0 128) 0).
  split.
  - unfold RecyclePool.wf. simpl. lia.
  - intros j o _ Hj. change (seq 0 128 !! j = Some o) in Hj.
    apply lookup_seq in Hj as [-> Hlt]. by apply lookup_replicate_2.
Qed.

Lemma call_set_dataLength_grow_pool_witness :
  ∃ added w',
    call_set_dataLength RecyclePool.SwapWithLast 0 3 world_one = Some w' ∧
    length (datas RenderData_new ++ (Some <$> added)) = 3 ∧
    RecyclePool.length (_dataPool w') = RecyclePool.length (_dataPool world_one) + 3.
Proof.
  destruct (call_set_dataLength_grow_pool RecyclePool.SwapWithLast 0 3 world_one
              RenderData_new eq_refl (le_n_S _ _ (Nat.le_0_l 2)) pool_ready_world_one)
    as (added & w' & Hcall & _ & Hlen & _ & Hcount & _).
  by exists added, w'.
Defined.


Lemma updateSizeNPivot_no_redirty_witness :
  updateSizeNPivot 10%float 10%float 0%float 0%float
    {| material := None; vertexCount := 0%float; indiceCount := 0%float;
       uvDirty := true; vertDirty := false;
       _datas := []; _indices := [];
       _pivotX := 0%float; _pivotY := 0%float;
       _width := 10%float; _height := 10%float |}
  = {| material := None; vertexCount := 0%float; indiceCount := 0%float;
       uvDirty := true; vertDirty := false;
       _datas := []; _indices := [];
       _pivotX := 0%float; _pivotY := 0%float;
       _width := 10%float; _height := 10%float |}.
Proof.
  exact (updateSizeNPivot_no_redirty 10%float 10%float 0%float 0%float
           RenderData_new false eq_refl eq_refl eq_refl eq_refl).
Defined.

(** ** More on the [dataLength] setter *)

Lemma splice_one_take {A} (i : nat) (arr : list A) :
  length arr ≤ S i → splice i 1 arr = take i arr.
Proof.
  intros Hlen. unfold splice. rewrite (drop_ge arr) by lia. apply app_nil_r.
Qed.

(** The shrinking loop cuts the array after index [to] and leaves the store
    of vertex records alone. *)
Lemma shrink_loop_data c (to : nat) : ∀ from st,
  length (rs_data st) ≤ S from → to < from →
  rs_data (foldl (shrink_step c) st (indices_down from to)) = take (S to) (rs_data st) ∧
  rs_vertices (foldl (shrink_step c) st (indices_down from to)) = rs_vertices st.
Proof.
  induction from as [|from IH]; intros st Hlen Hlt; [lia|].
  rewrite indices_down_S by lia. simpl.
  destruct (decide (to < from)) as [Hlt'|Hge].
  - destruct (IH (shrink_step c st (S from))) as [Hd Hv]; [|done|].
    { simpl. rewrite splice_one_take by done. rewrite length_take. lia. }
    rewrite Hd, Hv. simpl. split; [|done].
    rewrite splice_one_take by done. rewrite take_take. f_equal. lia.
  - assert (to = from) as -> by lia.
    unfold indices_down. rewrite Nat.sub_diag. simpl.
    split; [|done]. by apply splice_one_take.
Qed.

(** The growing loop only appends default-state records to the store. *)
Lemma grow_loop_vertices (l : list nat) : ∀ st,
  ∃ k, rs_vertices (foldl grow_step st l) = rs_vertices st ++ replicate k IRenderData_new.
Proof.
  induction l as [|i l IH]; intros st; simpl.
  - exists 0. simpl. by rewrite app_nil_r.
  - destruct (IH (grow_step st i)) as [k ->].
    unfold grow_step, RecyclePool.add.
    destruct (RecyclePool.data (rs_pool st) !! RecyclePool.count (rs_pool st)); simpl.
    + by exists k.
    + exists (S k). by rewrite <- app_assoc.
Qed.

Lemma shrink_loop_vertices c (l : list nat) : ∀ st,
  rs_vertices (foldl (shrink_step c) st l) = rs_vertices st.
Proof.
  induction l as [|i l IH]; intros st; simpl; [done|]. by rewrite IH.
Qed.

Lemma set_dataLength_vertices c n st :
  ∃ k, rs_vertices (set_dataLength c n st) = rs_vertices st ++ replicate k IRenderData_new.
Proof.
  unfold set_dataLength. destruct (negb _).
  - rewrite shrink_loop_vertices. apply grow_loop_vertices.
  - exists 0. simpl. by rewrite app_nil_r.
Qed.

(** Assigning the current length changes nothing at all. *)
Lemma set_dataLength_same c st :
  set_dataLength c (length (rs_data st)) st = st.
Proof. unfold set_dataLength. by rewrite Nat.eqb_refl. Qed.

(** Assigning the same value again leaves the array as the first assignment
    left it. *)
Lemma set_dataLength_again c n st :
  rs_data (set_dataLength c n (set_dataLength c n st)) = rs_data (set_dataLength c n st).
Proof.
  pose proof (set_dataLength_length c n st) as Hlen.
  set (st1 := set_dataLength c n st) in *.
  destruct (decide (n < length (rs_data st))) as [Hlt|Hge].
  - unfold set_dataLength. rewrite Hlen.
    destruct (Nat.eqb_spec (S n) n) as [?|_]; [lia|]. simpl.
    unfold indices_up. replace (n - S n) with 0 by lia. simpl.
    rewrite indices_down_S by lia.
    unfold indices_down. rewrite Nat.sub_diag. simpl.
    apply splice_beyond. lia.
  - rewrite <- Hlen at 1. by rewrite set_dataLength_same.
Qed.

(** X4: assigning [dataLength] the length [datas] already has changes
    nothing: not the instance, not [_dataPool], not any other part of the
    module state. *)
Theorem set_dataLength_same_length c o w this :
  objects w !! o = Some this →
  call_set_dataLength c o (dataLength this) w = Some w.
Proof.
  intros Ho. unfold call_set_dataLength, dataLength. rewrite Ho. simpl.
  change (length (_datas this)) with
    (length (rs_data {| rs_data := _datas this; rs_vertices := vertices w;
                        rs_pool := _dataPool w |})).
  rewrite set_dataLength_same. simpl.
  replace (with_datas (_datas this) this) with this by by destruct this.
  rewrite list_insert_id by done. by destruct w.
Qed.

Lemma set_dataLength_same_length_witness :
  call_set_dataLength RecyclePool.SwapWithLast 0 (dataLength RenderData_new) world_one
    = Some world_one.
Proof.
  exact (set_dataLength_same_length RecyclePool.SwapWithLast 0 world_one
           RenderData_new eq_refl).
Defined.

(** X5: assigning [dataLength] the same value twice in a row leaves every
    instance as the first assignment left it, whether that assignment grew,
    shrank or kept the array. *)
Theorem set_dataLength_twice c o n w this :
  objects w !! o = Some this →
  ∃ w1 w2, call_set_dataLength c o n w = Some w1 ∧
           call_set_dataLength c o n w1 = Some w2 ∧
           objects w2 = objects w1.
Proof.
  intros Ho. unfold call_set_dataLength at 1. rewrite Ho. simpl.
  eexists _, _. split; [done|].
  unfold call_set_dataLength. simpl.
  rewrite list_lookup_insert_eq by (by eapply lookup_lt_Some). simpl.
  split; [done|]. simpl.
  rewrite list_insert_insert_eq. f_equal. unfold with_datas. simpl. f_equal.
  set (st := {| rs_data := _datas this; rs_vertices := vertices w;
                rs_pool := _dataPool w |}).
  rewrite <- (set_dataLength_again c n st) at 2.
  by destruct (set_dataLength c n st).
Qed.

Lemma set_dataLength_twice_witness :
  ∃ w1 w2, shrink_3_to_1 RecyclePool.SwapWithLast = Some w1 ∧
           call_set_dataLength RecyclePool.SwapWithLast 0 1 w1 = Some w2 ∧
           objects w2 = objects w1.
Proof.
  destruct (set_dataLength_twice RecyclePool.SwapWithLast 0 1
              (default init_world
                 (call_set_dataLength RecyclePool.SwapWithLast 0 3 world_one))
              (with_datas [Some 0; Some 1; Some 2] RenderData_new) eq_refl)
    as (w1 & w2 & H1 & H2 & H3).
  by exists w1, w2.
Defined.

(** X6: shrinking from M to N < M keeps the first N + 1 records of [datas],
    in their order, drops the rest, and leaves the store of vertex records
    and every other instance as they are. *)
Theorem set_dataLength_shrink_prefix c o n w this :
  objects w !! o = Some this → n < dataLength this →
  ∃ w', call_set_dataLength c o n w = Some w' ∧
    objects w' = <[o := with_datas (take (S n) (datas this)) this]> (objects w) ∧
    vertices w' = vertices w.
Proof.
  intros Ho Hlt. unfold call_set_dataLength. rewrite Ho. simpl.
  eexists. split; [done|]. simpl. unfold dataLength in Hlt.
  unfold set_dataLength. simpl.
  destruct (Nat.eqb_spec (length (_datas this)) n) as [?|_]; [lia|]. simpl.
  unfold indices_up. replace (n - length (_datas this)) with 0 by lia. simpl.
  set (st := {| rs_data := _datas this; rs_vertices := vertices w;
                rs_pool := _dataPool w |}).
  destruct (shrink_loop_data c n (length (_datas this)) st) as [-> ->];
    [simpl; lia|done|].
  done.
Qed.

Lemma set_dataLength_shrink_prefix_witness :
  ∃ w', shrink_3_to_1 RecyclePool.ShiftLeft = Some w' ∧
        objects w' !! 0 = Some (with_datas [Some 0; Some 1] RenderData_new).
Proof.
  destruct (set_dataLength_shrink_prefix RecyclePool.ShiftLeft 0 1
              (default init_world
                 (call_set_dataLength RecyclePool.ShiftLeft 0 3 world_one))
              (with_datas [Some 0; Some 1; Some 2] RenderData_new) eq_refl
              (le_n_S _ _ (le_n_S _ _ (Nat.le_0_l 1))))
    as (w' & Hcall & Hobj & _).
  exists w'. split; [exact Hcall|]. rewrite Hobj. reflexivity.
Defined.

(** ** Vertex records *)

(** X7: no operation of the class writes a vertex record or returns one
    through [clear] or [remove]: after any operation the store holds the
    records it held, unchanged, followed by new default-state records; and
    every operation but the setter leaves the store and [_dataPool] exactly as
    they are. *)
Theorem vertex_records_kept c op w w' :
  run c op w = Some w' →
  (∃ k, vertices w' = vertices w ++ replicate k IRenderData_new) ∧
  ((∀ o n, op ≠ OpSetDataLength o n) →
   vertices w' = vertices w ∧ _dataPool w' = _dataPool w).
Proof.
  assert (∃ k, vertices w = vertices w ++ replicate k IRenderData_new) as Hsame.
  { exists 0. simpl. by rewrite app_nil_r. }
  destruct op as [o n|o width height pivotX pivotY|o| |idx]; simpl.
  - unfold call_set_dataLength.
    destruct (objects w !! o) as [this|]; [|done]. simpl. intros [= <-]. simpl.
    split; [|intros Hop; by destruct (Hop o n)].
    apply (set_dataLength_vertices c n
             {| rs_data := _datas this; rs_vertices := vertices w;
                rs_pool := _dataPool w |}).
  - unfold call_method.
    destruct (objects w !! o) as [this|]; [|done]. simpl. by intros [= <-].
  - unfold call_method.
    destruct (objects w !! o) as [this|]; [|done]. simpl. by intros [= <-].
  - intros [= <-]. unfold RenderData_add.
    by destruct (RecyclePool.add RenderData_new (objects w) (_pool w)) as [[? ?] ?].
  - unfold RenderData_remove.
    destruct (RecyclePool.data (_pool w) !! idx) as [o|]; [|done]. simpl.
    destruct (objects w !! o) as [this|]; [|done]. simpl. by intros [= <-].
Qed.

Lemma vertex_records_kept_witness :
  ∃ w', call_set_dataLength RecyclePool.SwapWithLast 0 3 world_one = Some w' ∧
  ∃ k, vertices w' = vertices world_one ++ replicate k IRenderData_new.
Proof.
  eexists. split; [reflexivity|].
  exact (proj1 (vertex_records_kept RecyclePool.SwapWithLast (OpSetDataLength 0 3)
                  world_one _ eq_refl)).
Defined.

(** X8: [clear ()] gives no record back: after growing an instance from M
    to N > M records and clearing it, [datas] is empty while the size of
    [_dataPool] is still N - M above what it was. *)
Theorem clear_keeps_records c o n w this :
  objects w !! o = Some this → dataLength this < n →
  ∃ w1 w2 this2, call_set_dataLength c o n w = Some w1 ∧
    call_method clear o w1 = Some w2 ∧
    objects w2 !! o = Some this2 ∧ dataLength this2 = 0 ∧
    RecyclePool.length (_dataPool w2) =
      RecyclePool.length (_dataPool w) + (n - dataLength this).
Proof.
  intros Ho Hlt.
  destruct (call_set_dataLength_grow c o n w this Ho Hlt)
    as (added & w1 & Hcall & Ho1 & _ & Hcount).
  exists w1. unfold call_method. rewrite Ho1. simpl.
  eexists _, _. split; [done|]. split; [done|]. simpl.
  split; [apply list_lookup_insert_eq; by eapply lookup_lt_Some|].
  split; [done|]. exact Hcount.
Qed.

Lemma clear_keeps_records_witness :
  ∃ w1 w2 this2,
    call_set_dataLength RecyclePool.SwapWithLast 0 3 world_one = Some w1 ∧
    call_method clear 0 w1 = Some w2 ∧
    objects w2 !! 0 = Some this2 ∧ dataLength this2 = 0 ∧
    RecyclePool.length (_dataPool w2) = RecyclePool.length (_dataPool world_one) + 3.
Proof.
  exact (clear_keeps_records RecyclePool.SwapWithLast 0 3 world_one RenderData_new
           eq_refl (le_n_S _ _ (Nat.le_0_l 2))).
Defined.

(** ** Errors of [remove] *)

(** X9: in every reachable state [RenderData.remove (idx)] throws exactly
    when [idx] is at or beyond the end of the backing storage of [_pool]; at
    any position inside the storage, live or spare, it returns. *)
Theorem remove_throws_iff c w idx :
  reachable c w →
  RenderData_remove c idx w = None ↔ length (RecyclePool.data (_pool w)) ≤ idx.
Proof.
  intros Hreach. destruct (reachable_wf c w Hreach) as [Hwf Hrefs].
  unfold RenderData_remove. split.
  - destruct (RecyclePool.data (_pool w) !! idx) as [o|] eqn:Hidx.
    + simpl.
      pose proof (Forall_lookup_1 (λ o, o < length (objects w)) _ _ _ Hrefs Hidx) as Hlt.
      destruct (lookup_lt_is_Some_2 _ _ Hlt) as [this ->]. done.
    + intros _. by apply lookup_ge_None_1.
  - intros Hge. by rewrite (lookup_ge_None_2 _ _ Hge).
Qed.

Lemma remove_throws_iff_witness :
  RenderData_remove RecyclePool.SwapWithLast 32 init_world = None ∧
  is_Some (RenderData_remove RecyclePool.SwapWithLast 31 init_world).
Proof.
  pose proof (remove_throws_iff RecyclePool.SwapWithLast init_world 32
                (reach_init _)) as H32.
  split.
  - apply H32. apply le_n.
  - by eexists.
Defined.

(** ** [datas] stays dense *)

Lemma slot_ok_mono (n m : nat) (s : option nat) : n ≤ m → slot_ok n s → slot_ok m s.
Proof. destruct s; simpl; [lia|done]. Qed.

Lemma grow_step_ok st :
  resize_ok st → resize_ok (grow_step st (length (rs_data st))).
Proof.
  intros (Hwf & Hrefs & Hdata). unfold grow_step.
  destruct (pool_add_cases IRenderData_new (rs_vertices st) (rs_pool st) Hwf)
    as [(o & Ho & ->)|[Hfull ->]]; rewrite array_set_end;
    unfold resize_ok, RecyclePool.wf; simpl.
  - split; [apply lookup_lt_Some in Ho; lia|]. split; [done|].
    apply Forall_app_2; [done|]. apply Forall_singleton. simpl.
    by apply (Forall_lookup_1 (λ v, v < length (rs_vertices st)) _ _ _ Hrefs Ho).
  - rewrite !length_app. simpl. split; [lia|]. split.
    + apply Forall_app_2; [|apply Forall_singleton; lia].
      eapply Forall_impl; [done|]. simpl. lia.
    + apply Forall_app_2; [|apply Forall_singleton; simpl; lia].
      eapply Forall_impl; [done|]. intros s. apply slot_ok_mono. lia.
Qed.

Lemma grow_loop_ok k : ∀ st,
  resize_ok st → resize_ok (foldl grow_step st (seq (length (rs_data st)) k)).
Proof.
  induction k as [|k IH]; intros st Hok; simpl; [done|].
  destruct (grow_step_end st) as (o & Hd & _).
  specialize (IH (grow_step st (length (rs_data st))) (grow_step_ok st Hok)).
  rewrite Hd, length_app in IH. simpl in IH.
  by replace (length (rs_data st) + 1) with (S (length (rs_data st))) in IH by lia.
Qed.

Lemma shrink_loop_ok c (l : list nat) : ∀ st,
  resize_ok st → resize_ok (foldl (shrink_step c) st l).
Proof.
  induction l as [|i l IH]; intros st Hok; simpl; [done|].
  apply IH. destruct Hok as (Hwf & Hrefs & Hdata).
  unfold resize_ok, shrink_step. simpl.
  split; [by apply removeAt_wf|]. split; [by apply removeAt_Forall|].
  unfold splice. apply Forall_app_2; [by apply Forall_take|by apply Forall_drop].
Qed.

Lemma set_dataLength_ok c n st : resize_ok st → resize_ok (set_dataLength c n st).
Proof.
  intros Hok. unfold set_dataLength. destruct (negb _); [|done].
  apply shrink_loop_ok. unfold indices_up. by apply grow_loop_ok.
Qed.

Lemma vertex_wf_init : vertex_wf init_world.
Proof.
  unfold vertex_wf.
  change (vertices init_world) with (replicate 128 IRenderData_new).
  change (_dataPool init_world) with (RecyclePool.mk (seq 0 128) 0).
  change (objects init_world) with (replicate 32 RenderData_new).
  rewrite length_replicate. split; [|split].
  - unfold RecyclePool.wf. simpl. lia.
  - apply Forall_forall. intros v Hv.
    change (v ∈ seq 0 128) in Hv. apply elem_of_seq in Hv. lia.
  - apply Forall_replicate. constructor.
Qed.

Lemma run_vertex_wf c op w w' :
  run c op w = Some w' → vertex_wf w → vertex_wf w'.
Proof.
  intros Hrun (Hwf & Hrefs & Hobjs).
  assert (∀ o this f, objects w !! o = Some this →
            (∀ d, datas (f d) = datas d ∨ datas (f d) = []) →
            vertex_wf {| vertices := vertices w;
                         objects := <[o := f this]> (objects w);
                         _dataPool := _dataPool w; _pool := _pool w |}) as Hupd.
  { intros o this f Ho Hf. unfold vertex_wf. simpl.
    split; [done|]. split; [done|]. apply Forall_insert; [done|].
    destruct (Hf this) as [-> | ->]; [|constructor].
    by apply (Forall_lookup_1
                (λ this, Forall (slot_ok (length (vertices w))) (datas this))
                (objects w) o this). }
  destruct op as [o n|o width height pivotX pivotY|o| |idx]; simpl in Hrun.
  - unfold call_set_dataLength in Hrun.
    destruct (objects w !! o) as [this|] eqn:Ho; [|done]. injection Hrun as <-.
    set (st := {| rs_data := _datas this; rs_vertices := vertices w;
                  rs_pool := _dataPool w |}).
    assert (resize_ok st) as Hok.
    { split; [done|]. split; [done|].
      by apply (Forall_lookup_1
                  (λ this, Forall (slot_ok (length (vertices w))) (datas this))
                  (objects w) o this). }
    destruct (set_dataLength_ok c n st Hok) as (Hwf' & Hrefs' & Hdata').
    destruct (set_dataLength_vertices c n st) as [k Hk].
    unfold vertex_wf. simpl. split; [done|]. split; [done|].
    apply Forall_insert; [|done].
    eapply Forall_impl; [done|]. intros d Hd. simpl in Hd.
    eapply Forall_impl; [done|]. intros s. apply slot_ok_mono.
    rewrite Hk, length_app. simpl. lia.
  - unfold call_method in Hrun.
    destruct (objects w !! o) as [this|] eqn:Ho; [|done]. injection Hrun as <-.
    apply Hupd; [done|]. intros d. left.
    unfold updateSizeNPivot, datas. by case_match.
  - unfold call_method in Hrun.
    destruct (objects w !! o) as [this|] eqn:Ho; [|done]. injection Hrun as <-.
    apply Hupd; [done|]. intros d. by right.
  - injection Hrun as <-. unfold RenderData_add, RecyclePool.add.
    destruct (RecyclePool.data (_pool w) !! RecyclePool.count (_pool w));
      unfold vertex_wf; simpl; [done|].
    split; [done|]. split; [done|].
    apply Forall_app_2; [done|]. apply Forall_singleton. constructor.
  - unfold RenderData_remove in Hrun.
    destruct (RecyclePool.data (_pool w) !! idx) as [o|]; [|done]. simpl in Hrun.
    destruct (objects w !! o) as [this|] eqn:Ho; [|done]. injection Hrun as <-.
    destruct (Hupd o this clear Ho) as (H1 & H2 & H3); [by right|].
    by repeat split.
Qed.

(** X10: after any sequence of operations of the class on the module as
    loaded, the [datas] of every instance is dense (no holes) and each of its
    entries references an existing vertex record. *)
Theorem datas_dense c ops w o this :
  run_all c ops init_world = Some w → objects w !! o = Some this →
  Forall (slot_ok (length (vertices w))) (datas this).
Proof.
  intros Hrun Ho.
  assert (vertex_wf w) as (_ & _ & Hobjs).
  { revert Hrun. generalize vertex_wf_init. generalize init_world.
    induction ops as [|op ops IH]; intros w0 Hw0; simpl.
    - by intros [= <-].
    - destruct (run c op w0) as [w1|] eqn:Hop; [|done]. simpl.
      apply IH. by eapply run_vertex_wf. }
  by apply (Forall_lookup_1
              (λ this, Forall (slot_ok (length (vertices w))) (datas this))
              (objects w) o this).
Qed.

Lemma datas_dense_witness :
  Forall (slot_ok 128) [Some 0; Some 1; Some 2].
Proof.
  exact (datas_dense RecyclePool.SwapWithLast shrink_then_grow
           (default init_world
              (run_all RecyclePool.SwapWithLast shrink_then_grow init_world))
           0 (with_datas [Some 0; Some 1; Some 2] RenderData_new) eq_refl eq_refl).
Defined.

(** ** Shared records *)

(** X11: the class does not keep a vertex record to one instance: after
    [a = add (); b = add (); a.data.dataLength = 2; b.data.dataLength = 2;
    a.data.dataLength = 0; a.data.dataLength = 3] the two instances hold the
    same record, under either compaction strategy (the shrinking loop
    releases the pool positions numbered by the indices of its own array). *)
Theorem records_can_be_shared c :
  ∃ w, run_all c shrink_then_grow init_world = Some w ∧ shares_record w.
Proof.
  destruct c; (eexists; split; [reflexivity|]);
    exists 0, 1, (with_datas [Some 0; Some 1; Some 2] RenderData_new),
           (with_datas [Some 2; Some 3] RenderData_new), 2;
    (split; [lia|]); (split; [reflexivity|]); (split; [reflexivity|]);
    split; simpl; repeat constructor.
Qed.

(** ** Feature queries *)

Section StatsQueryFacts.

Variable inherited : string → bool.

Lemma set_add_elem (set : list string) (entry m : string) :
  m ∈ StatsQuery.set_add set entry ↔ m ∈ set ∨ m = entry.
Proof.
  unfold StatsQuery.set_add. case_decide.
  - split; [auto|]. by intros [?| ->].
  - rewrite elem_of_app, list_elem_of_singleton. done.
Qed.

Lemma set_add_NoDup (set : list string) (entry : string) :
  NoDup set → NoDup (StatsQuery.set_add set entry).
Proof.
  intros Hnd. unfold StatsQuery.set_add. case_decide; [done|].
  apply NoDup_app. split; [done|]. split; [|apply NoDup_singleton].
  intros m Hm ->%list_elem_of_singleton. done.
Qed.

Lemma set_add_prefix (set : list string) (entry : string) :
  set `prefix_of` StatsQuery.set_add set entry.
Proof.
  unfold StatsQuery.set_add. case_decide; [done|]. by apply prefix_app_r.
Qed.

(** Adding all entries of an array to a set. *)
Lemma set_add_all (entries : list string) : ∀ set,
  NoDup set →
  NoDup (foldl StatsQuery.set_add set entries) ∧
  set `prefix_of` foldl StatsQuery.set_add set entries ∧
  ∀ m, m ∈ foldl StatsQuery.set_add set entries ↔ m ∈ set ∨ m ∈ entries.
Proof.
  induction entries as [|entry entries IH]; intros set Hnd; simpl.
  - split; [done|]. split; [done|]. intros m. rewrite elem_of_nil. tauto.
  - destruct (IH (StatsQuery.set_add set entry) (set_add_NoDup _ _ Hnd))
      as (Hnd' & Hpre & Hin).
    split; [done|]. split.
    + etrans; [apply set_add_prefix|done].
    + intros m. rewrite Hin, set_add_elem, elem_of_cons. tauto.
Qed.

Lemma visit_thrown (_features : gmap string StatsQuery.Feature) (ids : list string) :
  foldl (StatsQuery.visit inherited _features) None ids = None.
Proof. by induction ids. Qed.

(** The loop of [getModulesOfFeatures], from any set. *)
Lemma visit_all _features (ids : list string) : ∀ set ms,
  NoDup set →
  foldl (StatsQuery.visit inherited _features) (Some set) ids = Some ms →
  NoDup ms ∧ set `prefix_of` ms ∧
  ∀ m, m ∈ ms ↔
    m ∈ set ∨ ∃ id feature, id ∈ ids ∧ _features !! id = Some feature ∧
                            m ∈ StatsQuery.modules feature.
Proof.
  induction ids as [|id ids IH]; intros set ms Hnd; simpl.
  - intros [= <-]. split; [done|]. split; [done|].
    intros m. split; [auto|]. intros [?|(id & f & Hid & _)]; [done|].
    by apply elem_of_nil in Hid.
  - destruct (_features !! id) as [feature|] eqn:Hid.
    + destruct (set_add_all (StatsQuery.modules feature) set Hnd)
        as (Hnd1 & Hpre1 & Hin1).
      intros Hrest. destruct (IH _ _ Hnd1 Hrest) as (Hnd' & Hpre & Hin).
      split; [done|]. split; [by etrans|].
      intros m. rewrite Hin, Hin1. split.
      * intros [[?|Hm]|(id' & f & Hid' & Hf & Hm)]; [by left| |].
        -- right. exists id, feature. by rewrite elem_of_cons; auto.
        -- right. exists id', f. by rewrite elem_of_cons; auto.
      * intros [?|(id' & f & Hid' & Hf & Hm)]; [by auto|].
        apply elem_of_cons in Hid' as [->|Hid'].
        -- left. right. congruence.
        -- right. by exists id', f.
    + destruct (inherited id); [by rewrite visit_thrown|].
      intros Hrest. destruct (IH _ _ Hnd Hrest) as (Hnd' & Hpre & Hin).
      split; [done|]. split; [done|].
      intros m. rewrite Hin. split.
      * intros [?|(id' & f & Hid' & Hf & Hm)]; [by left|].
        right. exists id', f. by rewrite elem_of_cons; auto.
      * intros [?|(id' & f & Hid' & Hf & Hm)]; [by left|].
        apply elem_of_cons in Hid' as [->|Hid']; [congruence|].
        right. by exists id', f.
Qed.

Lemma visit_throws _features (ids : list string) : ∀ set,
  foldl (StatsQuery.visit inherited _features) (Some set) ids = None ↔
  ∃ id, id ∈ ids ∧ _features !! id = None ∧ inherited id = true.
Proof.
  induction ids as [|id ids IH]; intros set; simpl.
  - split; [done|]. intros (id & Hid & _). by apply elem_of_nil in Hid.
  - destruct (_features !! id) as [feature|] eqn:Hid.
    + rewrite IH. split.
      * intros (id' & Hin & Hf & Hi). exists id'. by rewrite elem_of_cons; auto.
      * intros (id' & Hin & Hf & Hi). apply elem_of_cons in Hin as [->|Hin];
          [congruence|]. by exists id'.
    + destruct (inherited id) eqn:Hinh.
      * rewrite visit_thrown. split; [|done]. intros _. exists id.
        by rewrite elem_of_cons; auto.
      * rewrite IH. split.
        -- intros (id' & Hin & Hf & Hi). exists id'. by rewrite elem_of_cons; auto.
        -- intros (id' & Hin & Hf & Hi). apply elem_of_cons in Hin as [->|Hin];
             [congruence|]. by exists id'.
Qed.

(** X12: what [getModulesOfFeatures] returns has no duplicates and holds
    exactly the modules of the requested ids that are features; ids that are
    no features contribute nothing. *)
Theorem getModulesOfFeatures_modules _features (featureIds ms : list string) :
  StatsQuery.getModulesOfFeatures inherited _features featureIds = Some ms →
  NoDup ms ∧
  ∀ m, m ∈ ms ↔
    ∃ id feature, id ∈ featureIds ∧ _features !! id = Some feature ∧
                  m ∈ StatsQuery.modules feature.
Proof.
  intros Hget. destruct (visit_all _ _ _ _ (NoDup_nil_2) Hget) as (Hnd & _ & Hin).
  split; [done|]. intros m. rewrite Hin, elem_of_nil. tauto.
Qed.

(** X13: [getModulesOfFeatures] throws exactly when one of the requested ids
    is not a feature but a name the prototype chain of [_features] has, such
    as [constructor]: [hasFeature] answers [true] for such an id. *)
Theorem getModulesOfFeatures_throws _features (featureIds : list string) :
  StatsQuery.getModulesOfFeatures inherited _features featureIds = None ↔
  ∃ id, id ∈ featureIds ∧ _features !! id = None ∧
        StatsQuery.hasFeature inherited _features id = true.
Proof.
  unfold StatsQuery.getModulesOfFeatures. rewrite visit_throws.
  split; intros (id & Hin & Hf & Hi); exists id;
    unfold StatsQuery.hasFeature in *; by rewrite Hf in *.
Qed.

(** X14: requesting more features only appends: the modules returned for
    [ids1] are, in the same order, the first of those returned for
    [ids1 ++ ids2]. *)
Theorem getModulesOfFeatures_append _features (ids1 ids2 ms : list string) :
  StatsQuery.getModulesOfFeatures inherited _features (ids1 ++ ids2) = Some ms →
  ∃ ms1, StatsQuery.getModulesOfFeatures inherited _features ids1 = Some ms1 ∧
         ms1 `prefix_of` ms.
Proof.
  unfold StatsQuery.getModulesOfFeatures. rewrite foldl_app.
  destruct (foldl (StatsQuery.visit inherited _features) (Some []) ids1)
    as [ms1|] eqn:H1; [|by rewrite visit_thrown].
  intros H2. exists ms1. split; [done|].
  destruct (visit_all _ _ _ _ NoDup_nil_2 H1) as (Hnd & _ & _).
  by destruct (visit_all _ _ _ _ Hnd H2) as (_ & Hpre & _).
Qed.

End StatsQueryFacts.

Lemma getModulesOfFeatures_modules_witness :
  NoDup ["cc/base"; "cc/ui"]%string.
Proof.
  exact (proj1 (getModulesOfFeatures_modules Object_prototype two_features
                  ["ui"; "none"; "base"]%string ["cc/base"; "cc/ui"]%string
                  ltac:(vm_compute; reflexivity))).
Defined.

Lemma getModulesOfFeatures_append_witness :
  ∃ ms1, StatsQuery.getModulesOfFeatures Object_prototype two_features ["base"]%string
           = Some ms1 ∧
         ms1 `prefix_of` ["cc/base"; "cc/ui"]%string.
Proof.
  exact (getModulesOfFeatures_append Object_prototype two_features
           ["base"]%string ["ui"]%string ["cc/base"; "cc/ui"]%string
           ltac:(vm_compute; reflexivity)).
Defined.

(** [getModulesOfFeatures (['base', 'constructor'])] throws, though
    [hasFeature ('constructor')] is [true]. *)
Lemma getModulesOfFeatures_throws_constructor :
  StatsQuery.hasFeature Object_prototype two_features "constructor" = true ∧
  StatsQuery.getModulesOfFeatures Object_prototype two_features
    ["base"; "constructor"]%string = None.
Proof. by vm_compute. Qed.

(** ** Release, then acquire *)

(** X15: after [h1 = add ()] and [remove (h1.pooID)], the next [add ()]
    hands out the same instance at the same position, allocates nothing and
    leaves [_pool] as it was after the first [add ()], under either
    compaction strategy. *)
Theorem release_then_acquire_reuses c w :
  world_wf w →
  ∃ w2, RenderData_remove c (pooID (RenderData_add w).1) (RenderData_add w).2 = Some w2 ∧
    data (RenderData_add w2).1 = data (RenderData_add w).1 ∧
    pooID (RenderData_add w2).1 = pooID (RenderData_add w).1 ∧
    length (objects (RenderData_add w2).2) = length (objects (RenderData_add w).2) ∧
    _pool (RenderData_add w2).2 = _pool (RenderData_add w).2.
Proof.
  intros [Hwf Hrefs]. unfold RenderData_add at 1 2 4 6 8 10.
  destruct (pool_add_cases RenderData_new (objects w) (_pool w) Hwf)
    as [(o & Ho & ->)|[Hfull ->]]; simpl;
    unfold RecyclePool.length; simpl; rewrite Nat.sub_0_r;
    unfold RenderData_remove; simpl.
  - rewrite Ho. simpl.
    pose proof (Forall_lookup_1 (λ o, o < length (objects w)) _ _ _ Hrefs Ho) as Hlt.
    destruct (lookup_lt_is_Some_2 _ _ Hlt) as [this Hthis].
    rewrite Hthis. simpl. eexists. split; [done|].
    rewrite removeAt_last.
    unfold RenderData_add, RecyclePool.add, RecyclePool.length. simpl.
    rewrite Ho. simpl. rewrite length_insert, Nat.sub_0_r. done.
  - rewrite Hfull, list_lookup_middle by done. simpl.
    rewrite list_lookup_middle by done. simpl.
    eexists. split; [done|].
    rewrite removeAt_last.
    unfold RenderData_add, RecyclePool.add, RecyclePool.length. simpl.
    rewrite list_lookup_middle by done. simpl.
    rewrite length_insert, Nat.sub_0_r. done.
Qed.

Lemma release_then_acquire_reuses_witness :
  ∃ w2, RenderData_remove RecyclePool.SwapWithLast 0 world_one = Some w2 ∧
    data (RenderData_add w2).1 = 0 ∧ pooID (RenderData_add w2).1 = 0.
Proof.
  destruct (release_then_acquire_reuses RecyclePool.SwapWithLast init_world
              world_wf_init) as (w2 & Hrem & Hdata & Hid & _).
  by exists w2.
Defined.
